(** * culture.c: the translation tables and the language registry

    A shallow embedding of atheme's [culture.c].  The three file-scope
    objects of the C file ([itranslation_tree], [translation_tree] and
    [language_list]) are the three fields of one [state] record that
    every operation receives and returns.

    - A C string is a [string]; a [const char *] argument is the
      sequence of bytes before its terminating NUL.
    - A patricia tree keyed with [noopcanon] is a [gmap string
      translation_t]: keys are compared byte for byte.
    - [language_list] is a [list language_t] in node order; a
      [language_t *] is the position of the record in that list, which
      never changes because the file has no removal from the list.
    - [unsigned int flags] is a [Z] handled with [Z.lor] and [Z.land]. *)

From Stdlib Require Import ZArith Ascii String.
From stdpp Require Import gmap strings list fin_maps.

Local Open Scope Z_scope.
Local Open Scope nat_scope.

(** ** Strings and the libc helpers *)

(** The first [n] bytes of [s] (all of it when it is shorter). *)
Fixpoint str_take (n : nat) (s : string) : string :=
  match n, s with
  | S k, String c r => String c (str_take k r)
  | _, _ => ""
  end.

(** [strlcpy(dst, src, size)]: the contents of [dst] afterwards, at most
    [size - 1] bytes of [src]. *)
Definition strlcpy (src : string) (size : nat) : string :=
  str_take (size - 1) src.

(** [strlcat(dst, src, size)]: the contents of [dst] afterwards.  The
    result holds at most [size - 1] bytes; a [dst] that already fills the
    buffer is left alone. *)
Definition strlcat (dst src : string) (size : nat) : string :=
  if decide (size ≤ String.length dst) then dst
  else dst +:+ str_take (size - 1 - String.length dst) src.

(** Modelled from the spec: [sstrdup], defined outside culture.c.  Section
    4.1 has the raw variant store "key and value verbatim": the copy holds
    the same bytes.  Section 7: allocation failure aborts the process; it
    is not part of the model. *)
Definition sstrdup (s : string) : string := s.

(** The two-byte escape of the source text, backslash then '2', and the
    one-byte string holding the control byte 0x02. *)
Definition bold_escape : string := "\2".
Definition bold_byte : string := String "002"%char "".

(** Left-to-right substitution of [new] for every occurrence of [old].
    [skip] counts the bytes of a matched [old] still to be dropped. *)
Fixpoint substitute_go (old new : string) (skip : nat) (s : string) : string :=
  match s with
  | "" => ""
  | String c r =>
      match skip with
      | S k => substitute_go old new k r
      | O =>
          if String.prefix old s
          then new +:+ substitute_go old new (String.length old - 1) r
          else String c (substitute_go old new 0 r)
      end
  end.

Definition substitute (old new s : string) : string :=
  substitute_go old new 0 s.

(** Modelled from the spec: [replace], declared in atheme.h and defined
    outside [culture.c].  Section 4.1 describes the call made here as "a
    literal text substitution": "every occurrence" of [old] "is rewritten
    to" [new]; [size] is the capacity of the buffer that is rewritten in
    place, and section 7 has oversized buffer contents "cut to the bounded
    size".  [old] is expected to be non-empty. *)
Definition replace (s : string) (size : nat) (old new : string) : string :=
  str_take (size - 1) (substitute old new s).

(** ** Data model *)

(** [struct translation_]: fields [name] and [replacement]. *)
Record translation_t := mk_translation {
  t_name : string;
  t_replacement : string
}.

(** [LANG_VALID = 1]: "have catalogs for this". *)
Definition LANG_VALID : Z := 1.

(** [struct language_]: fields [name] and [flags]; the [node] field is the
    list linkage, which is the position in [language_list] here. *)
Record language_t := mk_language {
  l_name : string;
  l_flags : Z
}.

Global Instance translation_eq_dec : EqDecision translation_t.
Proof. solve_decision. Defined.

Global Instance language_eq_dec : EqDecision language_t.
Proof. solve_decision. Defined.

(** The file-scope state of culture.c. *)
Record state := mk_state {
  itranslation_tree : gmap string translation_t;
  translation_tree : gmap string translation_t;
  language_list : list language_t
}.

(** Before any call: [language_list] is zero-initialised, an empty list.
    The two tree pointers are set by [translation_init]; until then the
    tables are taken to be empty. *)
Definition initial_state : state := mk_state ∅ ∅ [].

(** ** The patricia tree interface *)

(** What [mowgli_patricia_add] does with a key that is already present.
    Section 3 leaves it to the table ("overwrite-or-reject"). *)
Inductive dup_policy := Overwrite | Reject.

(** Modelled from the spec: [mowgli_patricia_create], [_retrieve] and
    [_delete] of the same library.  Section 4.1: [get] "returns the stored
    replacement for an exact key match, or a sentinel meaning not found",
    [None] here; [destroy] "removes ... the entry if present; no-op if
    absent". *)
Definition mowgli_patricia_create : gmap string translation_t := ∅.

Definition mowgli_patricia_retrieve
    (tree : gmap string translation_t) (key : string) : option translation_t :=
  tree !! key.

(** Modelled from the spec: [mowgli_patricia_add], from the tree library
    that culture.c links against.  Section 4.1: "stores a new entry";
    section 3: a duplicate key is overwritten or rejected, by the table's
    choice [dup]. *)
Definition mowgli_patricia_add (dup : dup_policy)
    (tree : gmap string translation_t) (key : string) (data : translation_t)
    : gmap string translation_t :=
  match tree !! key, dup with
  | Some _, Reject => tree
  | _, _ => <[key := data]> tree
  end.

(** [mowgli_patricia_delete]: the tree without [key], and the element that
    was removed ([None] for the C NULL). *)
Definition mowgli_patricia_delete
    (tree : gmap string translation_t) (key : string)
    : gmap string translation_t * option translation_t :=
  (delete key tree, tree !! key).

(** ** Language registry *)

(** Modelled from the spec: [smalloc], defined outside culture.c.  Section
    4.3 has [add] create "a new record with validity unset": the block it
    returns is zero-filled. *)
Definition smalloc_language : language_t := mk_language "" 0.

(** Modelled from the spec: [node_add], defined outside culture.c.  Section
    4.3: "appends it to the ordered collection (append order = insertion
    order, preserved for iteration)". *)
Definition node_add (lang : language_t) (l : list language_t) : list language_t :=
  l ++ [lang].

(** [LIST_FOREACH] with [strcmp]: the first record with that name. *)
Definition language_find (name : string) (st : state) : option nat :=
  fst <$> list_find (λ lang, l_name lang = name) (language_list st).

(** The [slog] debug line is not part of the state. *)
Definition language_add (name : string) (st : state) : nat * state :=
  match language_find name st with
  | Some lang => (lang, st)
  | None =>
      let lang := mk_language (sstrdup name) (l_flags smalloc_language) in
      (length (language_list st),
       mk_state (itranslation_tree st) (translation_tree st)
                (node_add lang (language_list st)))
  end.

(** [lang->flags |= LANG_VALID] on the record at position [lang]. *)
Definition flag_valid (r : language_t) : language_t :=
  mk_language (l_name r) (Z.lor (l_flags r) LANG_VALID).

Definition set_lang_valid (lang : nat) (st : state) : state :=
  mk_state (itranslation_tree st) (translation_tree st)
           (alter flag_valid lang (language_list st)).

(** [lang = language_add(name); lang->flags |= LANG_VALID;] *)
Definition add_valid (name : string) (st : state) : state :=
  let '(lang, st1) := language_add name st in
  set_lang_valid lang st1.

(** [ent->d_name[0] != '.']: the first byte of an empty name is the NUL. *)
Definition first_is_dot (d_name : string) : bool :=
  match d_name with
  | String c _ => bool_decide (c = "."%char)
  | "" => false
  end.

(** The body of the [readdir] loop for one entry. *)
Definition scan_entry (st : state) (d_name : string) : state :=
  if negb (first_is_dot d_name)
     && negb (bool_decide (d_name = "all_languages"))
     && negb (bool_decide (d_name = "locale.alias"))
  then add_valid d_name st
  else st.

(** [dir] is what [opendir(LOCALEDIR)] gives: [None] for NULL, otherwise
    the entry names in the order [readdir] returns them. *)
Definition language_init (dir : option (list string)) (st : state) : state :=
  let st1 := add_valid "en" st in
  match dir with
  | Some ents => foldl scan_entry st1 ents
  | None => st1
  end.

Definition language_is_valid (lang : language_t) : bool :=
  negb (Z.land (l_flags lang) LANG_VALID =? 0)%Z.

Definition language_get_name (lang : language_t) : string := l_name lang.

(** One round of the loop of [language_names] over the static buffer
    [names[512]]. *)
Definition names_step (names : string) (lang : language_t) : string :=
  if negb (Z.land (l_flags lang) LANG_VALID =? 0)%Z then
    let names1 :=
      if bool_decide (names = "") then names else strlcat names " " 512 in
    strlcat names1 (l_name lang) 512
  else names.

Definition language_names (st : state) : string :=
  foldl names_step "" (language_list st).

Section Culture.

(** The table's duplicate-key choice and the buffer size [BUFSIZE] of
    atheme's headers; neither is fixed by culture.c. *)
Variable dup : dup_policy.
Variable BUFSIZE : nat.

(** ** Translation tables *)

Definition translation_init (st : state) : state :=
  mk_state mowgli_patricia_create mowgli_patricia_create (language_list st).

Definition translation_get (st : state) (str : string) : string :=
  let str1 :=
    match mowgli_patricia_retrieve (itranslation_tree st) str with
    | Some t => t_replacement t
    | None => str
    end in
  match mowgli_patricia_retrieve (translation_tree st) str1 with
  | Some t => t_replacement t
  | None => str1
  end.

Definition itranslation_create (str trans : string) (st : state) : state :=
  let t := mk_translation (sstrdup str) (sstrdup trans) in
  mk_state (mowgli_patricia_add dup (itranslation_tree st) (t_name t) t)
           (translation_tree st) (language_list st).

(** The entry is released after the removal; with no heap in the model
    both branches of the NULL test leave the same state. *)
Definition itranslation_destroy (str : string) (st : state) : state :=
  let '(tree, t) := mowgli_patricia_delete (itranslation_tree st) str in
  match t with
  | None => mk_state tree (translation_tree st) (language_list st)
  | Some _ => mk_state tree (translation_tree st) (language_list st)
  end.

(** The entry that [translation_create] builds in [buf]. *)
Definition translation_entry (str trans : string) : translation_t :=
  let buf := strlcpy str BUFSIZE in
  let buf := replace buf BUFSIZE bold_escape bold_byte in
  let name := sstrdup buf in
  let buf := strlcpy trans BUFSIZE in
  let buf := replace buf BUFSIZE bold_escape bold_byte in
  mk_translation name (sstrdup buf).

Definition translation_create (str trans : string) (st : state) : state :=
  let t := translation_entry str trans in
  mk_state (itranslation_tree st)
           (mowgli_patricia_add dup (translation_tree st) (t_name t) t)
           (language_list st).

Definition translation_destroy (str : string) (st : state) : state :=
  let '(tree, t) := mowgli_patricia_delete (translation_tree st) str in
  match t with
  | None => mk_state (itranslation_tree st) tree (language_list st)
  | Some _ => mk_state (itranslation_tree st) tree (language_list st)
  end.

End Culture.

(** ** The operations as a transition system *)

Inductive op :=
  | Translation_init
  | Itranslation_create (str trans : string)
  | Itranslation_destroy (str : string)
  | Translation_create (str trans : string)
  | Translation_destroy (str : string)
  | Language_init (dir : option (list string))
  | Language_add (name : string).

Definition step (dup : dup_policy) (BUFSIZE : nat) (o : op) (st : state) : state :=
  match o with
  | Translation_init => translation_init st
  | Itranslation_create str trans => itranslation_create dup str trans st
  | Itranslation_destroy str => itranslation_destroy str st
  | Translation_create str trans => translation_create dup BUFSIZE str trans st
  | Translation_destroy str => translation_destroy str st
  | Language_init dir => language_init dir st
  | Language_add name => (language_add name st).2
  end.

(** The states the program can be in: any sequence of calls from the
    initial state. *)
Inductive reachable (dup : dup_policy) (BUFSIZE : nat) : state → Prop :=
  | reachable_initial : reachable dup BUFSIZE initial_state
  | reachable_step o st :
      reachable dup BUFSIZE st → reachable dup BUFSIZE (step dup BUFSIZE o st).

(** [s] has an occurrence of [pat] somewhere. *)
Fixpoint occurs (pat s : string) : bool :=
  String.prefix pat s ||
  match s with
  | "" => false
  | String _ r => occurs pat r
  end.

(** The spec's rewrite, as a relation between a text and its rewritten
    form: each backslash-'2' pair becomes the byte 0x02 and every other
    byte stays. *)
Inductive bold_rewritten : string → string → Prop :=
  | rewritten_end : bold_rewritten "" ""
  | rewritten_escape r r' :
      bold_rewritten r r' →
      bold_rewritten (String "\"%char (String "2"%char r)) (String "002"%char r')
  | rewritten_other c r r' :
      String.prefix bold_escape (String c r) = false →
      bold_rewritten r r' →
      bold_rewritten (String c r) (String c r').

(** An insertion takes effect when the table overwrites or the key is new. *)
Definition accepts (dup : dup_policy)
    (tree : gmap string translation_t) (key : string) : Prop :=
  dup = Overwrite ∨ mowgli_patricia_retrieve tree key = None.

(** The rewrite that [translation_create] asks of [replace]. *)
Definition bold_rewrite (s : string) : string :=
  substitute bold_escape bold_byte s.

(** The string of [n] copies of the byte [c]. *)
Fixpoint str_repeat (c : ascii) (n : nat) : string :=
  match n with
  | O => ""
  | S k => String c (str_repeat c k)
  end.

(** Name uniqueness in the registry. *)
Definition names_unique (st : state) : Prop :=
  NoDup (l_name <$> language_list st).

(** How often [name] is registered. *)
Definition name_count (name : string) (st : state) : nat :=
  length (filter (λ n, n = name) (l_name <$> language_list st)).

(** What may happen to the registry between two states: every record
    stays at its position, unchanged or with [LANG_VALID] set. *)
Definition registry_kept (st st' : state) : Prop :=
  ∀ i lang, language_list st !! i = Some lang →
    ∃ lang', language_list st' !! i = Some lang' ∧
             (lang' = lang ∨ lang' = flag_valid lang).

(** A sequence of calls, first call first. *)
Definition run (dup : dup_policy) (BUFSIZE : nat) (ops : list op) (st : state)
    : state :=
  foldl (λ s o, step dup BUFSIZE o s) st ops.

(** A directory entry that passes the test of the [readdir] loop. *)
Definition is_catalog_name (d_name : string) : Prop :=
  first_is_dot d_name = false ∧
  d_name ≠ "all_languages" ∧ d_name ≠ "locale.alias".

(** The names that [language_init] registers: the builtin "en" and the
    entries of the directory that pass the test. *)
Definition init_registers (dir : option (list string)) (name : string) : Prop :=
  name = "en" ∨ ∃ ents, dir = Some ents ∧ name ∈ ents ∧ is_catalog_name name.

(** [name] is registered and the first record that bears it has
    [LANG_VALID] set. *)
Definition registered_valid (name : string) (st : state) : Prop :=
  ∃ i r, language_find name st = Some i ∧
         language_list st !! i = Some r ∧ flag_valid r = r.

(** The names of the valid records, in registry order. *)
Definition valid_names (st : state) : list string :=
  l_name <$> filter (λ r, language_is_valid r = true) (language_list st).

(** One round of [language_names] in a buffer without bound. *)
Definition join_step (names name : string) : string :=
  (if bool_decide (names = "") then names else names +:+ " ") +:+ name.

(** [names] joined with single spaces. *)
Fixpoint str_join (names : list string) : string :=
  match names with
  | [] => ""
  | n :: rest =>
      match rest with
      | [] => n
      | _ :: _ => n +:+ " " +:+ str_join rest
      end
  end.

(** [names] without the empty strings at its head. *)
Fixpoint skip_empty (names : list string) : list string :=
  match names with
  | "" :: rest => skip_empty rest
  | _ => names
  end.

(** What the tables hold in every state the program reaches: an entry is
    filed under its own name, and the texts of the language table hold no
    escape and fit the buffer of [translation_create]. *)
Definition filed_by_name (tree : gmap string translation_t) : Prop :=
  ∀ k t, mowgli_patricia_retrieve tree k = Some t → t_name t = k.

Definition rewritten_entry (BUFSIZE : nat) (t : translation_t) : Prop :=
  occurs bold_escape (t_name t) = false ∧
  occurs bold_escape (t_replacement t) = false ∧
  String.length (t_name t) ≤ BUFSIZE - 1 ∧
  String.length (t_replacement t) ≤ BUFSIZE - 1.

(** ** Concrete runs *)

Example translation_entry_escape :
  translation_entry 512 "a\2b" "c\2d" =
  mk_translation (String "a" (String "002" (String "b" "")))
                 (String "c" (String "002" (String "d" ""))).
Proof. reflexivity. Qed.

Example translation_get_chain :
  let st := translation_create Reject 512 "nick" "pseudo"
              (itranslation_create Reject "NickServ" "nick" initial_state) in
  translation_get st "NickServ" = "pseudo" ∧
  translation_get st "nick" = "pseudo" ∧
  translation_get st "other" = "other".
Proof. vm_compute. auto. Qed.

Example language_names_scan :
  language_names
    (language_init (Some ["."; ".."; "fr"; "all_languages"; "de"; "locale.alias"; "fr"])
       ((language_add "xx" initial_state).2)) = "en fr de".
Proof. vm_compute. reflexivity. Qed.

(** ** The tree interface *)

Lemma retrieve_add_accepted dup tree key data :
  accepts dup tree key →
  mowgli_patricia_retrieve (mowgli_patricia_add dup tree key data) key = Some data.
Proof.
  unfold accepts, mowgli_patricia_retrieve, mowgli_patricia_add.
  intros [-> | ->].
  - destruct (tree !! key); apply lookup_insert_eq.
  - apply lookup_insert_eq.
Qed.

Lemma retrieve_add_present dup tree key data :
  is_Some (mowgli_patricia_retrieve (mowgli_patricia_add dup tree key data) key).
Proof.
  unfold mowgli_patricia_retrieve, mowgli_patricia_add.
  destruct (tree !! key) as [old|] eqn:E; destruct dup;
    rewrite ?lookup_insert_eq, ?E; eauto.
Qed.

Lemma retrieve_add_ne dup tree key data k :
  key ≠ k →
  mowgli_patricia_retrieve (mowgli_patricia_add dup tree key data) k =
  mowgli_patricia_retrieve tree k.
Proof.
  unfold mowgli_patricia_retrieve, mowgli_patricia_add. intros Hne.
  destruct (tree !! key), dup; by rewrite ?lookup_insert_ne.
Qed.

Lemma retrieve_delete_eq tree key :
  mowgli_patricia_retrieve (mowgli_patricia_delete tree key).1 key = None.
Proof. apply lookup_delete_eq. Qed.

Lemma retrieve_delete_ne tree key k :
  key ≠ k →
  mowgli_patricia_retrieve (mowgli_patricia_delete tree key).1 k =
  mowgli_patricia_retrieve tree k.
Proof. intros. by apply lookup_delete_ne. Qed.

Lemma delete_absent tree key :
  mowgli_patricia_retrieve tree key = None →
  (mowgli_patricia_delete tree key).1 = tree.
Proof. intros. by apply delete_id. Qed.

(** [itranslation_destroy] and [translation_destroy] without the NULL test. *)
Lemma itranslation_destroy_eq str st :
  itranslation_destroy str st =
  mk_state (mowgli_patricia_delete (itranslation_tree st) str).1
           (translation_tree st) (language_list st).
Proof. unfold itranslation_destroy. simpl. by destruct (_ !! _). Qed.

Lemma translation_destroy_eq str st :
  translation_destroy str st =
  mk_state (itranslation_tree st)
           (mowgli_patricia_delete (translation_tree st) str).1
           (language_list st).
Proof. unfold translation_destroy. simpl. by destruct (_ !! _). Qed.

Ltac destroy_eq :=
  rewrite ?itranslation_destroy_eq, ?translation_destroy_eq.

(** ** Lookup through the two tables *)

(** C1, as amended: when the internal table maps [s] to an entry whose
    replacement is not a key of the language table, [translation_get]
    returns that replacement; the internal result is kept. *)
Theorem translation_get_internal_kept st s t :
  mowgli_patricia_retrieve (itranslation_tree st) s = Some t →
  mowgli_patricia_retrieve (translation_tree st) (t_replacement t) = None →
  translation_get st s = t_replacement t.
Proof. intros Hi Ht. unfold translation_get. by rewrite Hi, Ht. Qed.

Lemma translation_get_internal_kept_witness :
  translation_get (itranslation_create Reject "NickServ" "nick" initial_state)
    "NickServ" = "nick".
Proof.
  apply (translation_get_internal_kept _ _ (mk_translation "NickServ" "nick"));
    reflexivity.
Defined.

(** C1 as stated fails: with "NickServ" mapped to "nick" in the internal
    table and an empty language table, the claim's two conditions hold
    and the result is "nick", not the input. *)
Lemma translation_get_not_original :
  let st := itranslation_create Reject "NickServ" "nick" initial_state in
  mowgli_patricia_retrieve (itranslation_tree st) "NickServ"
    = Some (mk_translation "NickServ" "nick") ∧
  mowgli_patricia_retrieve (translation_tree st) "nick" = None ∧
  translation_get st "NickServ" = "nick" ∧
  translation_get st "NickServ" ≠ "NickServ".
Proof. vm_compute. repeat split; congruence. Qed.

(** C7: a string that is a key of neither table comes back unchanged. *)
Theorem translation_get_miss st s :
  mowgli_patricia_retrieve (itranslation_tree st) s = None →
  mowgli_patricia_retrieve (translation_tree st) s = None →
  translation_get st s = s.
Proof. intros Hi Ht. unfold translation_get. by rewrite Hi, Ht. Qed.

Lemma translation_get_miss_witness :
  translation_get
    (translation_create Reject 512 "nick" "pseudo"
       (itranslation_create Reject "NickServ" "nick" initial_state))
    "ChanServ" = "ChanServ".
Proof. apply translation_get_miss; reflexivity. Defined.

(** ** Strings *)

Lemma str_take_length n s : String.length (str_take n s) = n `min` String.length s.
Proof.
  revert s. induction n as [|n IH]; intros [|c r]; simpl; auto.
Qed.

Lemma str_take_all n s : String.length s ≤ n → str_take n s = s.
Proof.
  revert s. induction n as [|n IH]; intros [|c r]; simpl; intros Hle;
    try reflexivity; try lia.
  f_equal. apply IH. lia.
Qed.

Lemma strlcpy_length src size : String.length (strlcpy src size) ≤ size - 1.
Proof. unfold strlcpy. rewrite str_take_length. lia. Qed.

Lemma strlcpy_fits src size :
  String.length src < size → strlcpy src size = src.
Proof. intros. apply str_take_all. lia. Qed.

Lemma str_repeat_length c n : String.length (str_repeat c n) = n.
Proof. induction n; simpl; auto. Qed.

(** When a string starts with the escape. *)
Lemma prefix_escape_true c r :
  String.prefix bold_escape (String c r) = true →
  c = "\"%char ∧ ∃ r', r = String "2" r'.
Proof.
  unfold bold_escape. cbn [String.prefix].
  destruct (ascii_dec "\" c) as [<-|]; [|discriminate].
  destruct r as [|d r']; [discriminate|]. cbn [String.prefix].
  destruct (ascii_dec "2" d) as [<-|]; [|discriminate].
  eauto.
Qed.

Lemma prefix_escape_head r :
  String.prefix bold_escape (String "\" (String "2" r)) = true.
Proof. by destruct r. Qed.

(** The two equations of the rewrite. *)
Lemma bold_rewrite_escape r :
  bold_rewrite (String "\" (String "2" r)) = String "002" (bold_rewrite r).
Proof. by destruct r. Qed.

Lemma bold_rewrite_other c r :
  String.prefix bold_escape (String c r) = false →
  bold_rewrite (String c r) = String c (bold_rewrite r).
Proof.
  intros H. unfold bold_rewrite, substitute. cbn [substitute_go].
  by rewrite H.
Qed.

(** Either a string starts with the escape or it does not; the induction
    of the rewrite follows that split. *)
Lemma bold_rewrite_ind (P : string → Prop) :
  P "" →
  (∀ r, P r → P (String "\" (String "2" r))) →
  (∀ c r, String.prefix bold_escape (String c r) = false → P r → P (String c r)) →
  ∀ s, P s.
Proof.
  intros Hnil Hesc Hoth s.
  assert (H : P s ∧ ∀ c, P (String c s)); [|tauto].
  induction s as [|d r [IHr IHc]].
  - split; [exact Hnil|]. intros c. apply Hoth; [|exact Hnil].
    destruct (String.prefix bold_escape (String c "")) eqn:E; [|done].
    by apply prefix_escape_true in E as [_ [r' ?]].
  - split; [apply IHc|]. intros c.
    destruct (String.prefix bold_escape (String c (String d r))) eqn:E.
    + apply prefix_escape_true in E as [-> [r' [= -> ->]]]. by apply Hesc.
    + apply Hoth; auto.
Qed.

Lemma bold_rewrite_spec s : bold_rewritten s (bold_rewrite s).
Proof.
  induction s as [|r IH|c r Hc IH] using bold_rewrite_ind.
  - constructor.
  - rewrite bold_rewrite_escape. by constructor.
  - rewrite bold_rewrite_other by done. by constructor.
Qed.

Lemma bold_rewritten_fun s s' : bold_rewritten s s' → s' = bold_rewrite s.
Proof.
  induction 1 as [|r r' _ IH|c r r' Hc _ IH].
  - reflexivity.
  - by rewrite bold_rewrite_escape, IH.
  - by rewrite bold_rewrite_other, IH.
Qed.

Lemma bold_rewritten_length s s' :
  bold_rewritten s s' → String.length s' ≤ String.length s.
Proof. induction 1; simpl; lia. Qed.

(** A rewritten text starts with '2' only where the original does. *)
Lemma bold_rewritten_head_2 s r' :
  bold_rewritten s (String "2" r') → ∃ r, s = String "2" r.
Proof. inversion 1; subst; eauto. Qed.

Lemma bold_rewritten_no_escape s s' :
  bold_rewritten s s' → occurs bold_escape s' = false.
Proof.
  induction 1 as [|r r' _ IH|c r r' Hc Hr IH].
  - reflexivity.
  - simpl. exact IH.
  - cbn [occurs]. rewrite IH, orb_false_r.
    destruct (String.prefix bold_escape (String c r')) eqn:E; [|done].
    apply prefix_escape_true in E as [-> [r'' ->]].
    apply bold_rewritten_head_2 in Hr as [r0 ->]. by destruct r0.
Qed.

Lemma bold_rewrite_no_escape s : occurs bold_escape (bold_rewrite s) = false.
Proof. eapply bold_rewritten_no_escape, bold_rewrite_spec. Qed.

Lemma bold_rewrite_length s : String.length (bold_rewrite s) ≤ String.length s.
Proof. apply bold_rewritten_length, bold_rewrite_spec. Qed.

(** A text without the escape is its own rewrite. *)
Lemma bold_rewrite_id s : occurs bold_escape s = false → bold_rewrite s = s.
Proof.
  induction s as [|r IH|c r Hc IH] using bold_rewrite_ind; intros Hs.
  - reflexivity.
  - cbn [occurs] in Hs. by rewrite prefix_escape_head in Hs.
  - rewrite bold_rewrite_other by done. f_equal. apply IH.
    cbn [occurs] in Hs. by apply orb_false_elim in Hs as [_ ?].
Qed.

(** In the buffer of [translation_create] the rewrite never needs more
    room than the copy it starts from. *)
Lemma replace_strlcpy BUFSIZE s :
  replace (strlcpy s BUFSIZE) BUFSIZE bold_escape bold_byte =
  bold_rewrite (str_take (BUFSIZE - 1) s).
Proof.
  unfold replace. fold (bold_rewrite (strlcpy s BUFSIZE)).
  apply str_take_all. etrans; [apply bold_rewrite_length|apply strlcpy_length].
Qed.

Lemma translation_entry_eq BUFSIZE str trans :
  translation_entry BUFSIZE str trans =
  mk_translation (bold_rewrite (str_take (BUFSIZE - 1) str))
                 (bold_rewrite (str_take (BUFSIZE - 1) trans)).
Proof. unfold translation_entry, sstrdup. by rewrite !replace_strlcpy. Qed.

Lemma translation_entry_fits BUFSIZE str trans :
  String.length str < BUFSIZE → String.length trans < BUFSIZE →
  translation_entry BUFSIZE str trans =
  mk_translation (bold_rewrite str) (bold_rewrite trans).
Proof.
  intros Hs Ht. rewrite translation_entry_eq.
  by rewrite !str_take_all by lia.
Qed.

(** ** Creating entries *)

(** C2, as amended: [translation_create] rewrites the copies of key and
    value that fit its buffer.  A key or value shorter than [BUFSIZE] is
    stored with every backslash-'2' pair rewritten to the byte 0x02; in
    general the rewrite is that of the first [BUFSIZE - 1] bytes.  The
    rewritten texts hold no escape and are what is handed to the table.
    [translation_get] compares its argument as it is given: once the
    table has taken the entry, the rewritten key finds the rewritten
    value, and no other spelling finds the new entry. *)
Theorem translation_create_rewrites dup BUFSIZE str trans st :
  let key := bold_rewrite (strlcpy str BUFSIZE) in
  let value := bold_rewrite (strlcpy trans BUFSIZE) in
  let st' := translation_create dup BUFSIZE str trans st in
  (String.length str < BUFSIZE → bold_rewritten str key) ∧
  (String.length trans < BUFSIZE → bold_rewritten trans value) ∧
  bold_rewritten (strlcpy str BUFSIZE) key ∧
  bold_rewritten (strlcpy trans BUFSIZE) value ∧
  occurs bold_escape key = false ∧
  occurs bold_escape value = false ∧
  translation_tree st'
    = mowgli_patricia_add dup (translation_tree st) key (mk_translation key value) ∧
  (accepts dup (translation_tree st) key →
   mowgli_patricia_retrieve (translation_tree st') key
     = Some (mk_translation key value) ∧
   (mowgli_patricia_retrieve (itranslation_tree st) key = None →
    translation_get st' key = value)) ∧
  (∀ k, k ≠ key →
     mowgli_patricia_retrieve (itranslation_tree st) k = None →
     mowgli_patricia_retrieve (translation_tree st) k = None →
     translation_get st' k = k).
Proof.
  intros key value st'.
  assert (Hentry : translation_entry BUFSIZE str trans = mk_translation key value)
    by apply translation_entry_eq.
  assert (Htree : translation_tree st'
    = mowgli_patricia_add dup (translation_tree st) key (mk_translation key value)).
  { subst st'. unfold translation_create. by rewrite Hentry. }
  split_and!.
  - intros Hlen. subst key. rewrite strlcpy_fits by done. apply bold_rewrite_spec.
  - intros Hlen. subst value. rewrite strlcpy_fits by done. apply bold_rewrite_spec.
  - apply bold_rewrite_spec.
  - apply bold_rewrite_spec.
  - apply bold_rewrite_no_escape.
  - apply bold_rewrite_no_escape.
  - exact Htree.
  - intros Hacc.
    assert (Hget : mowgli_patricia_retrieve (translation_tree st') key
                   = Some (mk_translation key value))
      by (rewrite Htree; by apply retrieve_add_accepted).
    split; [exact Hget|]. intros Hi. unfold translation_get.
    change (itranslation_tree st') with (itranslation_tree st).
    by rewrite Hi, Hget.
  - intros k Hne Hi Ht. unfold translation_get.
    change (itranslation_tree st') with (itranslation_tree st).
    rewrite Hi, Htree, retrieve_add_ne by done. by rewrite Ht.
Qed.

(** The spec's example: create("a\2b", "c\2d") on empty tables. *)
Lemma translation_create_rewrites_witness :
  mowgli_patricia_retrieve
    (translation_tree (translation_create Reject 512 "a\2b" "c\2d" initial_state))
    (String "a" (String "002" (String "b" "")))
  = Some (mk_translation (String "a" (String "002" (String "b" "")))
                         (String "c" (String "002" (String "d" "")))).
Proof.
  destruct (translation_create_rewrites Reject 512 "a\2b" "c\2d" initial_state)
    as (_ & _ & _ & _ & _ & _ & _ & H & _).
  destruct H as [H _]; [right; reflexivity | exact H].
Defined.

(** Whatever the buffer size, a key that ends with the escape and is one
    byte too long for the buffer is stored with the backslash alone. *)
Lemma str_take_repeat_escape c n :
  str_take (S n) (str_repeat c n +:+ "\2") = str_repeat c n +:+ "\".
Proof.
  induction n as [|n IH]; [done|].
  change (str_take (S (S n)) (String c (str_repeat c n +:+ "\2"))
          = String c (str_repeat c n +:+ "\")).
  change (str_take (S (S n)) (String c (str_repeat c n +:+ "\2")))
    with (String c (str_take (S n) (str_repeat c n +:+ "\2"))).
  by rewrite IH.
Qed.

Lemma occurs_repeat_backslash n :
  occurs bold_escape (str_repeat "a" n +:+ "\") = false.
Proof.
  induction n as [|n IH]; [done|].
  change (str_repeat "a" (S n) +:+ "\")
    with (String "a" (str_repeat "a" n +:+ "\")).
  cbn [occurs]. rewrite IH, orb_false_r.
  destruct (String.prefix _ _) eqn:E; [|done].
  by apply prefix_escape_true in E as [? _].
Qed.

Lemma translation_entry_cut_escape n trans :
  t_name (translation_entry (S (S n)) (str_repeat "a" n +:+ "\2") trans)
  = str_repeat "a" n +:+ "\".
Proof.
  rewrite translation_entry_eq. cbn [t_name].
  change (S (S n) - 1) with (S n).
  rewrite str_take_repeat_escape. apply bold_rewrite_id, occurs_repeat_backslash.
Qed.

(** C2 as stated fails for a key that does not fit: with a buffer of 512
    bytes and a key of 510 bytes followed by the escape, the copy ends
    with the backslash alone, and the key is stored with that backslash
    instead of the byte 0x02. *)
Lemma translation_create_cut_escape :
  let str := str_repeat "a" 510 +:+ "\2" in
  let st' := translation_create Reject 512 str "v" initial_state in
  occurs bold_escape str = true ∧
  mowgli_patricia_retrieve (translation_tree st') (str_repeat "a" 510 +:+ "\")
    = Some (mk_translation (str_repeat "a" 510 +:+ "\") "v") ∧
  mowgli_patricia_retrieve (translation_tree st') (bold_rewrite str) = None ∧
  ¬ bold_rewritten str (str_repeat "a" 510 +:+ "\").
Proof.
  split; [by vm_compute|]. split; [by vm_compute|]. split; [by vm_compute|].
  intros H%bold_rewritten_fun.
  apply (f_equal (String.get 510)) in H. vm_compute in H. discriminate.
Qed.

(** C3, as amended: only [translation_create] bounds what it stores.
    [itranslation_create] hands key and value to the table as they are,
    whatever their length; [translation_create] keeps the first
    [BUFSIZE - 1] bytes of each, rewrites them, and hands over at most
    [BUFSIZE - 1] bytes.  Both are total: nothing is reported to the
    caller. *)
Theorem create_truncation dup BUFSIZE str trans st :
  let t := translation_entry BUFSIZE str trans in
  itranslation_tree (itranslation_create dup str trans st)
    = mowgli_patricia_add dup (itranslation_tree st) str (mk_translation str trans) ∧
  (accepts dup (itranslation_tree st) str →
   mowgli_patricia_retrieve
     (itranslation_tree (itranslation_create dup str trans st)) str
     = Some (mk_translation str trans)) ∧
  translation_tree (translation_create dup BUFSIZE str trans st)
    = mowgli_patricia_add dup (translation_tree st) (t_name t) t ∧
  (accepts dup (translation_tree st) (t_name t) →
   mowgli_patricia_retrieve
     (translation_tree (translation_create dup BUFSIZE str trans st)) (t_name t)
     = Some t) ∧
  t_name t = bold_rewrite (str_take (BUFSIZE - 1) str) ∧
  t_replacement t = bold_rewrite (str_take (BUFSIZE - 1) trans) ∧
  String.length (t_name t) ≤ BUFSIZE - 1 ∧
  String.length (t_replacement t) ≤ BUFSIZE - 1.
Proof.
  intros t. subst t. unfold translation_create, itranslation_create.
  rewrite translation_entry_eq. cbn [t_name t_replacement sstrdup].
  split_and!; try reflexivity;
    try (intros Hacc; by apply retrieve_add_accepted);
    (etrans; [apply bold_rewrite_length|]); rewrite str_take_length; lia.
Qed.

Lemma create_truncation_witness :
  let key := str_repeat "k" 600 in
  let t := translation_entry 512 key "v" in
  mowgli_patricia_retrieve
    (translation_tree (translation_create Reject 512 key "v" initial_state))
    (t_name t) = Some t ∧
  String.length (t_name t) ≤ 511.
Proof.
  destruct (create_truncation Reject 512 (str_repeat "k" 600) "v" initial_state)
    as (_ & _ & _ & H & _ & _ & Hlen & _).
  split; [apply H; right; reflexivity | exact Hlen].
Defined.

(** C3 as stated fails for the internal variant: against a buffer size of
    512, a key and a value of 600 bytes each are stored whole by
    [itranslation_create], and nothing is filed under the key's first 511
    bytes. *)
Lemma itranslation_create_keeps_long :
  let key := str_repeat "k" 600 in
  let value := str_repeat "v" 600 in
  let st' := itranslation_create Reject key value initial_state in
  mowgli_patricia_retrieve (itranslation_tree st') key
    = Some (mk_translation key value) ∧
  String.length key = 600 ∧
  String.length value = 600 ∧
  mowgli_patricia_retrieve (itranslation_tree st') (strlcpy key 512) = None.
Proof.
  intros key value st'. split; [by apply retrieve_add_accepted; right|].
  split; [apply str_repeat_length|]. split; [apply str_repeat_length|].
  by vm_compute.
Qed.

(** ** Destroying entries *)

(** C8: on either table, once [k] is created and then destroyed it is not
    found any more, and destroying a key that is not there leaves the
    whole state as it was. *)
Theorem create_destroy_get dup BUFSIZE k v st :
  mowgli_patricia_retrieve
    (itranslation_tree (itranslation_destroy k (itranslation_create dup k v st))) k
    = None ∧
  mowgli_patricia_retrieve
    (translation_tree (translation_destroy k (translation_create dup BUFSIZE k v st))) k
    = None ∧
  (mowgli_patricia_retrieve (itranslation_tree st) k = None →
   itranslation_destroy k st = st) ∧
  (mowgli_patricia_retrieve (translation_tree st) k = None →
   translation_destroy k st = st).
Proof.
  split; [rewrite itranslation_destroy_eq; apply retrieve_delete_eq|].
  split; [rewrite translation_destroy_eq; apply retrieve_delete_eq|].
  split; intros Habs;
    [rewrite itranslation_destroy_eq | rewrite translation_destroy_eq];
    rewrite delete_absent by done; by destruct st.
Qed.

Lemma create_destroy_get_witness :
  itranslation_destroy "nick" initial_state = initial_state ∧
  translation_destroy "nick" initial_state = initial_state.
Proof.
  destruct (create_destroy_get Reject 512 "nick" "pseudo" initial_state)
    as (_ & _ & Hi & Ht).
  split; [apply Hi | apply Ht]; reflexivity.
Defined.

(** C9, as amended: [translation_destroy] compares its argument as given.
    When [k] holds the escape, the key that [translation_create] files is
    another string, the rewrite of the first [BUFSIZE - 1] bytes of [k];
    it is still there after [translation_destroy k], as after the
    destruction of any other string, and it is gone after the destruction
    of the filed key itself.  For a [k] shorter than [BUFSIZE] the filed
    key is the rewrite of [k], with its 0x02 bytes. *)
Theorem translation_destroy_verbatim dup BUFSIZE k v st :
  let st1 := translation_create dup BUFSIZE k v st in
  let key := t_name (translation_entry BUFSIZE k v) in
  occurs bold_escape k = true →
  key ≠ k ∧
  key = bold_rewrite (strlcpy k BUFSIZE) ∧
  (String.length k < BUFSIZE → key = bold_rewrite k) ∧
  is_Some (mowgli_patricia_retrieve (translation_tree st1) key) ∧
  mowgli_patricia_retrieve (translation_tree (translation_destroy k st1)) key
    = mowgli_patricia_retrieve (translation_tree st1) key ∧
  (∀ k', k' ≠ key →
     mowgli_patricia_retrieve (translation_tree (translation_destroy k' st1)) key
     = mowgli_patricia_retrieve (translation_tree st1) key) ∧
  mowgli_patricia_retrieve (translation_tree (translation_destroy key st1)) key
    = None.
Proof.
  intros st1 key Hk.
  assert (Hkey : key = bold_rewrite (strlcpy k BUFSIZE)).
  { subst key. by rewrite translation_entry_eq. }
  assert (Hne : key ≠ k).
  { intros Heq. rewrite Hkey in Heq.
    rewrite <- Heq in Hk. by rewrite bold_rewrite_no_escape in Hk. }
  assert (Hother : ∀ k', k' ≠ key →
    mowgli_patricia_retrieve (translation_tree (translation_destroy k' st1)) key
    = mowgli_patricia_retrieve (translation_tree st1) key).
  { intros k' Hk'. rewrite translation_destroy_eq. simpl.
    by apply retrieve_delete_ne. }
  split; [exact Hne|]. split; [exact Hkey|]. split.
  { intros Hlen. rewrite Hkey. by rewrite strlcpy_fits. }
  split; [apply retrieve_add_present|].
  split; [by apply Hother|]. split; [exact Hother|].
  rewrite translation_destroy_eq. apply retrieve_delete_eq.
Qed.

Lemma translation_destroy_verbatim_witness :
  let st1 := translation_create Reject 512 "a\2b" "c\2d" initial_state in
  mowgli_patricia_retrieve (translation_tree (translation_destroy "a\2b" st1))
    (String "a" (String "002" (String "b" "")))
  = mowgli_patricia_retrieve (translation_tree st1)
      (String "a" (String "002" (String "b" ""))).
Proof.
  destruct (translation_destroy_verbatim Reject 512 "a\2b" "c\2d" initial_state)
    as (_ & _ & _ & _ & H & _); [reflexivity | exact H].
Defined.

(** C9 as stated fails for a key that does not fit: with a buffer of 512
    bytes and a key of 510 bytes followed by the escape, the entry is
    filed under the 510 bytes and a lone backslash.  Destroying the
    rewritten key, with its 0x02 byte, removes nothing: the entry is
    still found and still translates; destroying the filed key removes
    it. *)
Lemma translation_destroy_rewritten_misses :
  let k := str_repeat "a" 510 +:+ "\2" in
  let filed := str_repeat "a" 510 +:+ "\" in
  let st1 := translation_create Reject 512 k "v" initial_state in
  occurs bold_escape k = true ∧
  bold_rewrite k = str_repeat "a" 510 +:+ String "002" "" ∧
  mowgli_patricia_retrieve (translation_tree st1) filed
    = Some (mk_translation filed "v") ∧
  mowgli_patricia_retrieve
    (translation_tree (translation_destroy (bold_rewrite k) st1)) filed
    = Some (mk_translation filed "v") ∧
  translation_get (translation_destroy (bold_rewrite k) st1) filed = "v" ∧
  mowgli_patricia_retrieve
    (translation_tree (translation_destroy filed st1)) filed = None.
Proof. vm_compute. by split_and!. Qed.

(** ** The language registry *)

Lemma flag_valid_name r : l_name (flag_valid r) = l_name r.
Proof. reflexivity. Qed.

Lemma flag_valid_is_valid r : language_is_valid (flag_valid r) = true.
Proof.
  unfold language_is_valid, flag_valid, LANG_VALID. simpl.
  rewrite Z.land_lor_distr_l. change (Z.land 1 1) with 1%Z.
  apply negb_true_iff, Z.eqb_neq. intros H%Z.lor_eq_0_iff. lia.
Qed.

Lemma flag_valid_idemp r : flag_valid (flag_valid r) = flag_valid r.
Proof.
  unfold flag_valid. simpl. f_equal.
  by rewrite <- Z.lor_assoc, Z.lor_diag.
Qed.

Lemma smalloc_language_invalid name :
  language_is_valid (mk_language name (l_flags smalloc_language)) = false.
Proof. reflexivity. Qed.

Lemma language_find_Some name st i :
  language_find name st = Some i →
  ∃ lang, language_list st !! i = Some lang ∧ l_name lang = name.
Proof.
  unfold language_find. intros ([j lang] & Hfind & ->)%fmap_Some.
  apply list_find_Some in Hfind as (? & ? & _). eauto.
Qed.

Lemma language_find_None name st :
  language_find name st = None ↔ name ∉ l_name <$> language_list st.
Proof.
  unfold language_find. rewrite fmap_None, list_elem_of_fmap. split.
  - intros Hnone (lang & -> & Hin).
    apply list_find_None in Hnone. rewrite Forall_forall in Hnone.
    by apply (Hnone lang).
  - intros Hnot. apply list_find_None, Forall_forall.
    intros lang Hin Hname. apply Hnot. by exists lang.
Qed.

Lemma language_find_is_Some name st :
  name ∈ l_name <$> language_list st → is_Some (language_find name st).
Proof.
  intros Hin. destruct (language_find name st) eqn:E; [eauto|].
  by apply language_find_None in E.
Qed.

(** The two branches of [language_add]. *)
Lemma language_add_found name st i :
  language_find name st = Some i → language_add name st = (i, st).
Proof. unfold language_add. by intros ->. Qed.

Lemma language_add_new name st :
  language_find name st = None →
  language_add name st =
  (length (language_list st),
   mk_state (itranslation_tree st) (translation_tree st)
            (language_list st ++ [mk_language name 0])).
Proof. unfold language_add. by intros ->. Qed.

Lemma language_add_registered name st :
  let r := language_add name st in
  ∃ lang, language_list r.2 !! r.1 = Some lang ∧ l_name lang = name.
Proof.
  destruct (language_find name st) as [i|] eqn:E.
  - rewrite (language_add_found _ _ _ E). simpl. by apply language_find_Some.
  - rewrite (language_add_new _ _ E). simpl. exists (mk_language name 0).
    split; [|done]. by apply list_lookup_middle.
Qed.

Lemma language_add_find name st :
  let r := language_add name st in language_find name r.2 = Some r.1.
Proof.
  destruct (language_find name st) as [i|] eqn:E.
  - by rewrite (language_add_found _ _ _ E).
  - rewrite (language_add_new _ _ E). simpl. unfold language_find in *. simpl.
    apply fmap_None in E. rewrite list_find_app_r by done. simpl.
    by rewrite decide_True.
Qed.

Lemma language_add_names_unique name st :
  names_unique st → names_unique (language_add name st).2.
Proof.
  unfold names_unique. intros Hnd.
  destruct (language_find name st) as [i|] eqn:E.
  - by rewrite (language_add_found _ _ _ E).
  - rewrite (language_add_new _ _ E). simpl. rewrite fmap_app. simpl.
    apply NoDup_app. split; [done|]. split; [|apply NoDup_singleton].
    intros x Hx ->%list_elem_of_singleton. by apply language_find_None in E.
Qed.

Lemma set_lang_valid_names lang st :
  l_name <$> language_list (set_lang_valid lang st) = l_name <$> language_list st.
Proof.
  simpl. rewrite (list_fmap_alter l_name flag_valid id).
  - by apply list_alter_id.
  - by apply Forall_true.
Qed.

Lemma add_valid_names_unique name st :
  names_unique st → names_unique (add_valid name st).
Proof.
  intros Hnd. unfold add_valid.
  destruct (language_add name st) as [lang st1] eqn:E.
  unfold names_unique. rewrite set_lang_valid_names.
  change st1 with (lang, st1).2. rewrite <- E. by apply language_add_names_unique.
Qed.

Lemma scan_entry_names_unique st d_name :
  names_unique st → names_unique (scan_entry st d_name).
Proof.
  unfold scan_entry. destruct (_ && _); auto using add_valid_names_unique.
Qed.

Lemma language_init_names_unique dir st :
  names_unique st → names_unique (language_init dir st).
Proof.
  intros Hnd. unfold language_init.
  apply (add_valid_names_unique "en") in Hnd.
  destruct dir as [ents|]; [|done].
  revert Hnd. generalize (add_valid "en" st).
  induction ents as [|e ents IH]; intros s Hs; simpl;
    auto using scan_entry_names_unique.
Qed.

Lemma step_names_unique dup BUFSIZE o st :
  names_unique st → names_unique (step dup BUFSIZE o st).
Proof.
  destruct o; cbn [step]; unfold names_unique; destroy_eq; try done.
  - apply language_init_names_unique.
  - apply language_add_names_unique.
Qed.

Lemma reachable_names_unique dup BUFSIZE st :
  reachable dup BUFSIZE st → names_unique st.
Proof.
  induction 1 as [|o st _ IH]; [apply NoDup_nil_2|].
  by apply step_names_unique.
Qed.

Lemma filter_eq_absent (x : string) (l : list string) :
  x ∉ l → filter (λ n, n = x) l = [].
Proof.
  induction l as [|y l IH]; [done|]. intros [Hne Hx]%not_elem_of_cons.
  rewrite filter_cons_False by congruence. by apply IH.
Qed.

Lemma filter_eq_NoDup (x : string) (l : list string) :
  NoDup l → x ∈ l → length (filter (λ n, n = x) l) = 1.
Proof.
  induction 1 as [|y l Hy Hnd IH]; intros Hin; [by apply elem_of_nil in Hin|].
  apply elem_of_cons in Hin as [->|Hin].
  - rewrite filter_cons_True by done. by rewrite filter_eq_absent.
  - rewrite filter_cons_False; [by apply IH|]. by intros ->.
Qed.

(** C4: [language_add] is idempotent.  In a state the program can reach,
    the first call returns a record that bears the name; the second call
    returns the same record and the same state; the name is then
    registered exactly once. *)
Theorem language_add_idempotent dup BUFSIZE name st :
  reachable dup BUFSIZE st →
  let r := language_add name st in
  (∃ lang, language_list r.2 !! r.1 = Some lang ∧ l_name lang = name) ∧
  language_add name r.2 = r ∧
  name_count name r.2 = 1.
Proof.
  intros Hreach r. split; [apply language_add_registered|]. split.
  - rewrite (language_add_found name r.2 r.1); [by destruct r|].
    apply language_add_find.
  - apply filter_eq_NoDup.
    + by apply language_add_names_unique, (reachable_names_unique dup BUFSIZE).
    + destruct (language_add_registered name st) as (lang & Hl & <-).
      apply list_elem_of_fmap. exists lang. split; [done|].
      by eapply list_elem_of_lookup_2.
Qed.

Lemma language_add_idempotent_witness :
  let st := language_init None initial_state in
  let r := language_add "fr" st in
  language_add "fr" r.2 = r ∧ name_count "fr" r.2 = 1.
Proof.
  destruct (language_add_idempotent Reject 512 "fr"
              (step Reject 512 (Language_init None) initial_state))
    as (_ & H1 & H2); [apply reachable_step, reachable_initial|].
  exact (conj H1 H2).
Defined.

(** C5: when [opendir] fails on a registry that is still empty,
    [language_init] leaves exactly one record, "en" with [LANG_VALID]
    set, and [language_names] returns "en". *)
Theorem language_init_no_directory st :
  language_list st = [] →
  let st' := language_init None st in
  language_list st' = [mk_language "en" LANG_VALID] ∧
  language_is_valid (mk_language "en" LANG_VALID) = true ∧
  language_names st' = "en".
Proof.
  destruct st as [it tt ll]. simpl. intros ->. by vm_compute.
Qed.

Lemma language_init_no_directory_witness :
  language_names (language_init None initial_state) = "en".
Proof.
  destruct (language_init_no_directory initial_state) as (_ & _ & H);
    [reflexivity | exact H].
Defined.

(** ** Records over time *)

Lemma registry_kept_refl st : registry_kept st st.
Proof. intros i lang H. eauto. Qed.

Lemma registry_kept_trans st1 st2 st3 :
  registry_kept st1 st2 → registry_kept st2 st3 → registry_kept st1 st3.
Proof.
  intros H12 H23 i lang H1.
  destruct (H12 i lang H1) as (lang2 & H2 & Hl2).
  destruct (H23 i lang2 H2) as (lang3 & H3 & Hl3).
  exists lang3. split; [done|].
  destruct Hl2 as [->| ->], Hl3 as [->| ->]; rewrite ?flag_valid_idemp; auto.
Qed.

(** [language_add] moves and changes no record. *)
Lemma language_add_lookup name st i lang :
  language_list st !! i = Some lang →
  language_list (language_add name st).2 !! i = Some lang.
Proof.
  intros H. destruct (language_find name st) as [j|] eqn:E.
  - by rewrite (language_add_found _ _ _ E).
  - rewrite (language_add_new _ _ E). simpl. by apply lookup_app_l_Some.
Qed.


Lemma set_lang_valid_kept lang st : registry_kept st (set_lang_valid lang st).
Proof.
  intros i r H. simpl. destruct (decide (lang = i)) as [->|Hne].
  - exists (flag_valid r). rewrite list_lookup_alter_eq, H. auto.
  - exists r. rewrite list_lookup_alter_ne by done. auto.
Qed.

Lemma add_valid_kept name st : registry_kept st (add_valid name st).
Proof.
  unfold add_valid. destruct (language_add name st) as [lang st1] eqn:E.
  apply registry_kept_trans with st1; [|apply set_lang_valid_kept].
  intros i r H. exists r. split; [|auto].
  change st1 with (lang, st1).2. rewrite <- E. by apply language_add_lookup.
Qed.

Lemma scan_entry_kept st d_name : registry_kept st (scan_entry st d_name).
Proof.
  unfold scan_entry.
  destruct (_ && _); [apply add_valid_kept | apply registry_kept_refl].
Qed.

Lemma language_init_kept dir st : registry_kept st (language_init dir st).
Proof.
  unfold language_init.
  apply registry_kept_trans with (add_valid "en" st); [apply add_valid_kept|].
  destruct dir as [ents|]; [|apply registry_kept_refl].
  generalize (add_valid "en" st).
  induction ents as [|e ents IH]; intros s; simpl; [apply registry_kept_refl|].
  eapply registry_kept_trans; [apply scan_entry_kept | apply IH].
Qed.

Lemma step_kept dup BUFSIZE o st : registry_kept st (step dup BUFSIZE o st).
Proof.
  destruct o; cbn [step]; destroy_eq;
    try (intros i r H; exists r; by auto).
  - apply language_init_kept.
  - intros i r H. exists r. split; [by apply language_add_lookup | auto].
Qed.



(** ** Independence of the three structures *)

Lemma add_valid_tables name st :
  itranslation_tree (add_valid name st) = itranslation_tree st ∧
  translation_tree (add_valid name st) = translation_tree st.
Proof.
  unfold add_valid, language_add.
  by destruct (language_find name st).
Qed.

Lemma scan_entry_tables st d_name :
  itranslation_tree (scan_entry st d_name) = itranslation_tree st ∧
  translation_tree (scan_entry st d_name) = translation_tree st.
Proof.
  unfold scan_entry. destruct (_ && _); [apply add_valid_tables | done].
Qed.

Lemma language_init_tables dir st :
  itranslation_tree (language_init dir st) = itranslation_tree st ∧
  translation_tree (language_init dir st) = translation_tree st.
Proof.
  unfold language_init.
  destruct (add_valid_tables "en" st) as [<- <-].
  destruct dir as [ents|]; [|done].
  generalize (add_valid "en" st).
  induction ents as [|e ents IH]; intros s; simpl; [done|].
  destruct (scan_entry_tables s e) as [<- <-]. apply IH.
Qed.

(** C10: each operation changes one structure only.  The internal-table
    operations leave the language table and the registry as they were,
    the language-table operations leave the internal table and the
    registry, and [language_init] and [language_add] leave both tables. *)
Theorem structures_independent dup BUFSIZE st str trans dir name :
  (translation_tree (itranslation_create dup str trans st) = translation_tree st ∧
   language_list (itranslation_create dup str trans st) = language_list st) ∧
  (translation_tree (itranslation_destroy str st) = translation_tree st ∧
   language_list (itranslation_destroy str st) = language_list st) ∧
  (itranslation_tree (translation_create dup BUFSIZE str trans st)
     = itranslation_tree st ∧
   language_list (translation_create dup BUFSIZE str trans st) = language_list st) ∧
  (itranslation_tree (translation_destroy str st) = itranslation_tree st ∧
   language_list (translation_destroy str st) = language_list st) ∧
  (itranslation_tree (language_init dir st) = itranslation_tree st ∧
   translation_tree (language_init dir st) = translation_tree st) ∧
  (itranslation_tree (language_add name st).2 = itranslation_tree st ∧
   translation_tree (language_add name st).2 = translation_tree st).
Proof.
  rewrite itranslation_destroy_eq, translation_destroy_eq.
  repeat split; try reflexivity; try apply language_init_tables;
    unfold language_add; by destruct (language_find name st).
Qed.

(** ** Creating, looking up and destroying, together *)

Lemma retrieve_add_inv dup tree key data k t :
  mowgli_patricia_retrieve (mowgli_patricia_add dup tree key data) k = Some t →
  mowgli_patricia_retrieve tree k = Some t ∨ (k = key ∧ t = data).
Proof.
  unfold mowgli_patricia_retrieve, mowgli_patricia_add.
  destruct (tree !! key) eqn:E, dup; auto;
    (destruct (decide (key = k)) as [->|Hne];
     [rewrite lookup_insert_eq; intros [= <-]; auto
     |rewrite lookup_insert_ne by done; auto]).
Qed.

Lemma retrieve_delete_inv tree key k t :
  mowgli_patricia_retrieve (mowgli_patricia_delete tree key).1 k = Some t →
  mowgli_patricia_retrieve tree k = Some t.
Proof.
  unfold mowgli_patricia_retrieve, mowgli_patricia_delete. simpl.
  destruct (decide (key = k)) as [->|Hne].
  - by rewrite lookup_delete_eq.
  - by rewrite lookup_delete_ne.
Qed.

Lemma retrieve_empty k : mowgli_patricia_retrieve ∅ k = None.
Proof. apply lookup_empty. Qed.

Lemma add_delete_absent dup tree key data :
  mowgli_patricia_retrieve tree key = None →
  (mowgli_patricia_delete (mowgli_patricia_add dup tree key data) key).1 = tree.
Proof.
  unfold mowgli_patricia_retrieve, mowgli_patricia_delete, mowgli_patricia_add.
  intros Habs. rewrite Habs. simpl.
  rewrite delete_insert_eq. by apply delete_id.
Qed.

(** A text without escape that fits the buffer goes through
    [translation_create] unchanged. *)
Lemma plain_text_kept BUFSIZE s :
  occurs bold_escape s = false → String.length s < BUFSIZE →
  bold_rewrite (str_take (BUFSIZE - 1) s) = s.
Proof.
  intros Hs Hlen. rewrite str_take_all by lia. by apply bold_rewrite_id.
Qed.

Lemma translation_entry_rewritten BUFSIZE str trans :
  rewritten_entry BUFSIZE (translation_entry BUFSIZE str trans).
Proof.
  rewrite translation_entry_eq. unfold rewritten_entry. cbn [t_name t_replacement].
  split_and!; try apply bold_rewrite_no_escape;
    (etrans; [apply bold_rewrite_length|]); rewrite str_take_length; lia.
Qed.

(** X1: An internal entry [k -> v] and a language entry [v -> w], created in
    that order through the two create functions, make [translation_get]
    map [k] to the stored form of [w]: the two tables chain.  [v] is a
    plain text that fits the buffer, and both insertions are taken. *)
Theorem translation_get_created_chain dup BUFSIZE k v w st :
  occurs bold_escape v = false →
  String.length v < BUFSIZE →
  accepts dup (itranslation_tree st) k →
  accepts dup (translation_tree st) v →
  translation_get
    (translation_create dup BUFSIZE v w (itranslation_create dup k v st)) k
  = bold_rewrite (strlcpy w BUFSIZE).
Proof.
  intros Hv Hlen Hi Ht. unfold translation_get, translation_create.
  rewrite translation_entry_eq. cbn [itranslation_tree translation_tree t_name].
  unfold itranslation_create, sstrdup.
  cbn [itranslation_tree translation_tree t_name].
  rewrite plain_text_kept by done.
  rewrite retrieve_add_accepted by done. cbn [t_replacement].
  by rewrite retrieve_add_accepted by done.
Qed.

Lemma translation_get_created_chain_witness :
  translation_get
    (translation_create Reject 512 "nick" "pseudo"
       (itranslation_create Reject "NickServ" "nick" initial_state))
    "NickServ" = "pseudo".
Proof.
  apply (translation_get_created_chain Reject 512 "NickServ" "nick" "pseudo");
    [reflexivity | simpl; lia | right; reflexivity | right; reflexivity].
Defined.

(** X2: A plain key that fits the buffer finds what [translation_create]
    stored for it, as long as the internal table has nothing for that key
    and the insertion is taken. *)
Theorem translation_get_created dup BUFSIZE k v st :
  occurs bold_escape k = false →
  String.length k < BUFSIZE →
  mowgli_patricia_retrieve (itranslation_tree st) k = None →
  accepts dup (translation_tree st) k →
  translation_get (translation_create dup BUFSIZE k v st) k
  = bold_rewrite (strlcpy v BUFSIZE).
Proof.
  intros Hk Hlen Hi Ht. unfold translation_get, translation_create.
  rewrite translation_entry_eq. cbn [itranslation_tree translation_tree t_name].
  rewrite Hi, plain_text_kept by done.
  by rewrite retrieve_add_accepted by done.
Qed.

Lemma translation_get_created_witness :
  translation_get (translation_create Reject 512 "Hello" "Bonjour \2vous\2"
                     initial_state) "Hello"
  = "Bonjour " +:+ String "002" "vous" +:+ String "002" "".
Proof.
  apply (translation_get_created Reject 512 "Hello" "Bonjour \2vous\2");
    [reflexivity | simpl; lia | reflexivity | right; reflexivity].
Defined.

(** X3: Creating an entry under a key that is not in the table and then
    destroying that key gives back the state as it was: in the internal
    table for any key, in the language table for a plain key that fits
    the buffer. *)
Theorem create_destroy_restores dup BUFSIZE k v st :
  (mowgli_patricia_retrieve (itranslation_tree st) k = None →
   itranslation_destroy k (itranslation_create dup k v st) = st) ∧
  (occurs bold_escape k = false → String.length k < BUFSIZE →
   mowgli_patricia_retrieve (translation_tree st) k = None →
   translation_destroy k (translation_create dup BUFSIZE k v st) = st).
Proof.
  split.
  - intros Habs. rewrite itranslation_destroy_eq.
    unfold itranslation_create, sstrdup.
    cbn [itranslation_tree translation_tree language_list t_name].
    rewrite add_delete_absent by done. by destruct st.
  - intros Hk Hlen Habs. rewrite translation_destroy_eq.
    unfold translation_create. rewrite translation_entry_eq.
    cbn [itranslation_tree translation_tree language_list t_name].
    rewrite plain_text_kept by done.
    rewrite add_delete_absent by done. by destruct st.
Qed.

Lemma create_destroy_restores_witness :
  itranslation_destroy "NickServ"
    (itranslation_create Reject "NickServ" "nick" initial_state) = initial_state ∧
  translation_destroy "nick"
    (translation_create Reject 512 "nick" "pseudo" initial_state) = initial_state.
Proof.
  destruct (create_destroy_restores Reject 512 "NickServ" "nick" initial_state)
    as [Hi _].
  destruct (create_destroy_restores Reject 512 "nick" "pseudo" initial_state)
    as [_ Ht].
  split; [apply Hi; reflexivity | apply Ht; [reflexivity | simpl; lia | reflexivity]].
Defined.

(** X4: Creating or destroying the internal entry of [k] changes the
    translation of no other string. *)
Theorem translation_get_internal_frame dup k v s st :
  s ≠ k →
  translation_get (itranslation_create dup k v st) s = translation_get st s ∧
  translation_get (itranslation_destroy k st) s = translation_get st s.
Proof.
  intros Hne. rewrite itranslation_destroy_eq.
  unfold translation_get, itranslation_create, sstrdup.
  cbn [itranslation_tree translation_tree t_name].
  by rewrite retrieve_add_ne, retrieve_delete_ne by done.
Qed.

Lemma translation_get_internal_frame_witness :
  let st := translation_create Reject 512 "nick" "pseudo" initial_state in
  translation_get (itranslation_create Reject "NickServ" "nick" st) "nick"
  = translation_get st "nick".
Proof.
  intros st.
  destruct (translation_get_internal_frame Reject "NickServ" "nick" "nick" st)
    as [H _]; [discriminate | exact H].
Defined.

(** X5: In every state the program reaches, each entry of either table is
    filed under its own name, and each entry of the language table has a
    name and a replacement without escape and of at most [BUFSIZE - 1]
    bytes. *)
Theorem reachable_tables dup BUFSIZE st :
  reachable dup BUFSIZE st →
  filed_by_name (itranslation_tree st) ∧
  filed_by_name (translation_tree st) ∧
  (∀ k t, mowgli_patricia_retrieve (translation_tree st) k = Some t →
     rewritten_entry BUFSIZE t).
Proof.
  induction 1 as [|o st _ (IHi & IHt & IHr)].
  - cbn [initial_state itranslation_tree translation_tree].
    split_and!; intros k t H; by rewrite retrieve_empty in H.
  - destruct o; cbn [step]; destroy_eq;
      unfold translation_init, mowgli_patricia_create,
        itranslation_create, translation_create, sstrdup;
      cbn [itranslation_tree translation_tree t_name].
    + split_and!; intros k t H; by rewrite retrieve_empty in H.
    + split_and!; [|done..].
      intros k t' [?|[-> ->]]%retrieve_add_inv; [by apply IHi | done].
    + split_and!; [|done..]. intros k t' ?%retrieve_delete_inv. by apply IHi.
    + split_and!; [done|..].
      * intros k t' [?|[-> ->]]%retrieve_add_inv; [by apply IHt | done].
      * intros k t' [?|[-> ->]]%retrieve_add_inv;
          [by eapply IHr | apply translation_entry_rewritten].
    + split_and!; [done|..].
      * intros k t' ?%retrieve_delete_inv. by apply IHt.
      * intros k t' ?%retrieve_delete_inv. by eapply IHr.
    + destruct (language_init_tables dir st) as [-> ->]. done.
    + unfold language_add. by destruct (language_find name st).
Qed.

Lemma reachable_tables_witness :
  let st := translation_create Reject 512 "a\2b" "c\2d" initial_state in
  filed_by_name (translation_tree st) ∧
  ∀ k t, mowgli_patricia_retrieve (translation_tree st) k = Some t →
         rewritten_entry 512 t.
Proof.
  destruct (reachable_tables Reject 512
              (step Reject 512 (Translation_create "a\2b" "c\2d") initial_state))
    as (_ & Hf & Hr); [apply reachable_step, reachable_initial|].
  exact (conj Hf Hr).
Defined.

(** ** Finding and registering languages *)

Lemma registry_kept_name st st' i r r' :
  registry_kept st st' →
  language_list st !! i = Some r → language_list st' !! i = Some r' →
  l_name r' = l_name r.
Proof.
  intros Hk H H'. destruct (Hk i r H) as (r'' & H'' & Hr).
  rewrite H' in H''. injection H'' as <-. by destruct Hr as [->| ->].
Qed.

Lemma registry_kept_find st st' name i :
  registry_kept st st' →
  language_find name st = Some i → language_find name st' = Some i.
Proof.
  unfold language_find.
  intros Hk ([j r] & Hfind & ->)%fmap_Some. simpl.
  apply list_find_Some in Hfind as (Hj & Hname & Hfirst).
  destruct (Hk j r Hj) as (r' & Hj' & Hr).
  apply fmap_Some. exists (j, r'). split; [|done].
  apply list_find_Some. split_and!; [done| |].
  - rewrite <- Hname. by apply (registry_kept_name st st' j).
  - intros j0 y Hy Hlt.
    destruct (lookup_lt_is_Some_2 (language_list st) j0) as [y0 Hy0].
    { apply lookup_lt_Some in Hj. lia. }
    rewrite (registry_kept_name st st' j0 y0 y) by done.
    by apply (Hfirst j0).
Qed.

Lemma registered_valid_kept st st' name :
  registry_kept st st' → registered_valid name st → registered_valid name st'.
Proof.
  intros Hk (i & r & Hfind & Hi & Hfix). exists i, r.
  split; [by apply (registry_kept_find st)|]. split; [|done].
  destruct (Hk i r Hi) as (r' & Hi' & [->| ->]); by rewrite ?Hfix in Hi'.
Qed.

Lemma registered_valid_is_valid name st :
  registered_valid name st →
  ∃ i r, language_find name st = Some i ∧ language_list st !! i = Some r ∧
         l_name r = name ∧ language_is_valid r = true.
Proof.
  intros (i & r & Hfind & Hi & Hfix). exists i, r. split_and!; [done..| |].
  - destruct (language_find_Some _ _ _ Hfind) as (r' & Hi' & Hname).
    rewrite Hi in Hi'. by injection Hi' as ->.
  - rewrite <- Hfix. apply flag_valid_is_valid.
Qed.

Lemma add_valid_registered name st : registered_valid name (add_valid name st).
Proof.
  unfold add_valid. destruct (language_add name st) as [lang st1] eqn:E.
  assert (Hfind : language_find name st1 = Some lang).
  { change st1 with (lang, st1).2. change lang with (lang, st1).1 at 2.
    rewrite <- E. apply language_add_find. }
  destruct (language_find_Some _ _ _ Hfind) as (r & Hr & _).
  exists lang, (flag_valid r). split_and!.
  - apply (registry_kept_find st1); [apply set_lang_valid_kept | done].
  - cbn [set_lang_valid language_list]. by rewrite list_lookup_alter_eq, Hr.
  - apply flag_valid_idemp.
Qed.

Lemma list_alter_fixed (f : language_t → language_t)
    (l : list language_t) (i : nat) r :
  l !! i = Some r → f r = r → alter f i l = l.
Proof.
  intros Hi Hf. apply list_eq. intros j.
  destruct (decide (i = j)) as [<-|Hne].
  - by rewrite list_lookup_alter_eq, Hi; simpl; rewrite Hf.
  - by rewrite list_lookup_alter_ne.
Qed.

Lemma add_valid_fixed name st : registered_valid name st → add_valid name st = st.
Proof.
  intros (i & r & Hfind & Hi & Hfix). unfold add_valid.
  rewrite (language_add_found _ _ _ Hfind). unfold set_lang_valid.
  rewrite (list_alter_fixed _ _ _ _ Hi Hfix). by destruct st.
Qed.

(** A record that does not bear the name is left alone by [add_valid]. *)
Lemma add_valid_other name st i r :
  language_list st !! i = Some r → l_name r ≠ name →
  language_list (add_valid name st) !! i = Some r.
Proof.
  intros Hi Hne. unfold add_valid.
  destruct (language_add name st) as [lang st1] eqn:E.
  assert (H1 : language_list st1 !! i = Some r).
  { change st1 with (lang, st1).2. rewrite <- E. by apply language_add_lookup. }
  assert (Hfind : language_find name st1 = Some lang).
  { change st1 with (lang, st1).2. change lang with (lang, st1).1 at 2.
    rewrite <- E. apply language_add_find. }
  destruct (language_find_Some _ _ _ Hfind) as (r0 & Hr0 & Hname).
  cbn [set_lang_valid language_list]. rewrite list_lookup_alter_ne; [done|].
  intros ->. rewrite H1 in Hr0. injection Hr0 as ->. done.
Qed.

Lemma add_valid_names_inv name st n :
  n ∈ l_name <$> language_list (add_valid name st) →
  n ∈ l_name <$> language_list st ∨ n = name.
Proof.
  unfold add_valid. destruct (language_add name st) as [lang st1] eqn:E.
  rewrite set_lang_valid_names.
  change st1 with (lang, st1).2. rewrite <- E.
  destruct (language_find name st) as [i|] eqn:Ef.
  - rewrite (language_add_found _ _ _ Ef). auto.
  - rewrite (language_add_new _ _ Ef). cbn [snd language_list].
    rewrite fmap_app. intros [?|?%list_elem_of_singleton]%elem_of_app; auto.
Qed.

(** The test of the [readdir] loop decides [is_catalog_name]. *)
Lemma scan_entry_cases st d_name :
  (is_catalog_name d_name ∧ scan_entry st d_name = add_valid d_name st) ∨
  (¬ is_catalog_name d_name ∧ scan_entry st d_name = st).
Proof.
  unfold scan_entry, is_catalog_name.
  destruct (first_is_dot d_name); [right; split; [intros [? _]|]; done|].
  destruct (decide (d_name = "all_languages")) as [->|H1];
    [right; split; [intros (_ & ? & _)|]; done|].
  destruct (decide (d_name = "locale.alias")) as [->|H2];
    [right; split; [intros (_ & _ & ?)|]; done|].
  left. split; [done|].
  by rewrite !bool_decide_eq_false_2 by done.
Qed.

Lemma foldl_scan_kept ents st : registry_kept st (foldl scan_entry st ents).
Proof.
  revert st. induction ents as [|e ents IH]; intros st; simpl;
    [apply registry_kept_refl|].
  eapply registry_kept_trans; [apply scan_entry_kept | apply IH].
Qed.

Lemma foldl_scan_registered ents st name :
  name ∈ ents → is_catalog_name name →
  registered_valid name (foldl scan_entry st ents).
Proof.
  intros Hin Hcat. revert st.
  induction ents as [|e ents IH]; intros st; [by apply elem_of_nil in Hin|].
  simpl. apply elem_of_cons in Hin as [<-|Hin]; [|by apply IH].
  apply (registered_valid_kept (scan_entry st name)); [apply foldl_scan_kept|].
  destruct (scan_entry_cases st name) as [[_ ->]|[? _]]; [|done].
  apply add_valid_registered.
Qed.

Lemma language_init_registered dir st name :
  init_registers dir name → registered_valid name (language_init dir st).
Proof.
  unfold language_init. intros [->|(ents & -> & Hin & Hcat)].
  - destruct dir as [ents|]; [|apply add_valid_registered].
    apply (registered_valid_kept (add_valid "en" st));
      [apply foldl_scan_kept | apply add_valid_registered].
  - by apply foldl_scan_registered.
Qed.

Lemma foldl_scan_names_inv ents st n :
  n ∈ l_name <$> language_list (foldl scan_entry st ents) →
  n ∈ l_name <$> language_list st ∨ (n ∈ ents ∧ is_catalog_name n).
Proof.
  revert st. induction ents as [|e ents IH]; intros st; simpl; [auto|].
  intros [Hin|[Hin Hcat]]%IH.
  - destruct (scan_entry_cases st e) as [[Hcat Hs]|[_ Hs]]; rewrite Hs in Hin.
    + apply add_valid_names_inv in Hin as [?| ->]; [auto|].
      right. split; [apply elem_of_cons; auto | done].
    + auto.
  - right. split; [apply elem_of_cons; auto | done].
Qed.

Lemma foldl_scan_other ents st i r :
  language_list st !! i = Some r →
  ¬ (l_name r ∈ ents ∧ is_catalog_name (l_name r)) →
  language_list (foldl scan_entry st ents) !! i = Some r.
Proof.
  revert st. induction ents as [|e ents IH]; intros st Hi Hno; simpl; [done|].
  apply IH.
  - destruct (scan_entry_cases st e) as [[Hcat ->]|[_ ->]]; [|done].
    apply add_valid_other; [done|]. intros Heq. apply Hno.
    rewrite Heq. split; [apply elem_of_cons; auto | done].
  - intros [Hin Hcat]. apply Hno. split; [apply elem_of_cons; auto | done].
Qed.

Lemma foldl_scan_fixed ents st :
  (∀ e, e ∈ ents → is_catalog_name e → registered_valid e st) →
  foldl scan_entry st ents = st.
Proof.
  induction ents as [|e ents IH]; intros Hreg; simpl; [done|].
  assert (Hs : scan_entry st e = st).
  { destruct (scan_entry_cases st e) as [[Hcat ->]|[_ ->]]; [|done].
    apply add_valid_fixed, Hreg; [apply elem_of_cons; auto | done]. }
  rewrite Hs. apply IH. intros e' Hin. apply Hreg, elem_of_cons. auto.
Qed.

(** X6: [language_find] returns the position of the first record that bears
    the name, and nothing exactly when no record bears it. *)
Theorem language_find_first name st :
  (language_find name st = None ↔
   ∀ r, r ∈ language_list st → l_name r ≠ name) ∧
  (∀ i, language_find name st = Some i ↔
     (∃ r, language_list st !! i = Some r ∧ l_name r = name) ∧
     (∀ j r, j < i → language_list st !! j = Some r → l_name r ≠ name)).
Proof.
  unfold language_find. split.
  - rewrite fmap_None, list_find_None, Forall_forall. done.
  - intros i. rewrite fmap_Some. split.
    + intros ([j r] & (Hj & Hname & Hfirst)%list_find_Some & ->). simpl.
      split; [eauto|]. intros j0 r0 Hlt Hj0. by apply (Hfirst j0).
    + intros [(r & Hi & Hname) Hfirst]. exists (i, r). split; [|done].
      apply list_find_Some. split_and!; [done..|].
      intros j y Hy Hlt. by apply (Hfirst j).
Qed.

(** X7: After [language_add] the name is found at the record that was
    returned, and the answer of [language_find] for every other name is
    what it was before. *)
Theorem language_find_after_add name n st :
  language_find name (language_add name st).2 = Some (language_add name st).1 ∧
  (n ≠ name →
   language_find n (language_add name st).2 = language_find n st).
Proof.
  split; [apply language_add_find|]. intros Hne.
  destruct (language_find name st) as [i|] eqn:E.
  - by rewrite (language_add_found _ _ _ E).
  - rewrite (language_add_new _ _ E). unfold language_find.
    cbn [snd language_list].
    destruct (list_find (λ lang, l_name lang = n) (language_list st))
      as [[j r]|] eqn:En.
    + by rewrite (list_find_app_l _ _ _ _ _ En).
    + rewrite list_find_app_r by done. simpl.
      by rewrite decide_False by congruence.
Qed.

Lemma language_find_after_add_witness :
  let st := language_init None initial_state in
  language_find "en" (language_add "fr" st).2 = language_find "en" st.
Proof.
  intros st. destruct (language_find_after_add "fr" "en" st) as [_ H].
  apply H. discriminate.
Defined.

(** X8: In a state the program reaches, every record is the one that
    [language_find] returns for its name. *)
Theorem language_find_complete dup BUFSIZE st i r :
  reachable dup BUFSIZE st →
  language_list st !! i = Some r →
  language_find (l_name r) st = Some i.
Proof.
  intros Hnd%reachable_names_unique Hi.
  unfold language_find. apply fmap_Some. exists (i, r). split; [|done].
  apply list_find_Some. split_and!; [done..|].
  intros j y Hy Hlt Heq. unfold names_unique in Hnd.
  assert (j = i); [|lia].
  apply (NoDup_lookup _ j i (l_name r) Hnd);
    rewrite list_lookup_fmap; [by rewrite Hy; simpl; rewrite Heq | by rewrite Hi].
Qed.

Lemma language_find_complete_witness :
  let st := language_init (Some ["fr"; "de"]) initial_state in
  language_find "de" st = Some 2.
Proof.
  apply (language_find_complete Reject 512
           (step Reject 512 (Language_init (Some ["fr"; "de"])) initial_state)
           2 (mk_language "de" 1));
    [apply reachable_step, reachable_initial | reflexivity].
Defined.

(** X9: After [language_init], "en" and every directory entry that passes the
    test of the scan are registered, and the record that [language_find]
    returns for each of them is valid; the state before does not matter. *)
Theorem language_init_validates dir st name :
  init_registers dir name →
  ∃ i r, language_find name (language_init dir st) = Some i ∧
         language_list (language_init dir st) !! i = Some r ∧
         language_get_name r = name ∧ language_is_valid r = true.
Proof.
  intros Hreg. by apply registered_valid_is_valid, language_init_registered.
Qed.

Lemma language_init_validates_witness :
  ∃ i r, language_find "fr"
           (language_init (Some ["."; "fr"]) (language_add "fr" initial_state).2)
         = Some i ∧
         language_list
           (language_init (Some ["."; "fr"]) (language_add "fr" initial_state).2)
           !! i = Some r ∧
         language_get_name r = "fr" ∧ language_is_valid r = true.
Proof.
  apply language_init_validates. right. exists ["."; "fr"].
  split; [reflexivity|]. split; [apply elem_of_cons; right; apply elem_of_cons; auto|].
  repeat split; discriminate.
Defined.

(** X10: [language_init] registers nothing else: a name it leaves in the
    registry was there before, or is "en", or is a directory entry that
    passes the test, so an entry that starts with a dot or bears a
    reserved name is never registered by the scan.  A record with any
    other name is left as it was. *)
Theorem language_init_adds_only dir st :
  (∀ name, name ∈ l_name <$> language_list (language_init dir st) →
     name ∈ l_name <$> language_list st ∨ init_registers dir name) ∧
  (∀ i r, language_list st !! i = Some r →
     ¬ init_registers dir (l_name r) →
     language_list (language_init dir st) !! i = Some r).
Proof.
  unfold language_init, init_registers. split.
  - intros name Hin. destruct dir as [ents|].
    + apply foldl_scan_names_inv in Hin as [Hin|[Hin Hcat]].
      * apply add_valid_names_inv in Hin as [?|?]; auto.
      * right. right. eauto.
    + apply add_valid_names_inv in Hin as [?|?]; auto.
  - intros i r Hi Hno.
    assert (Hen : language_list (add_valid "en" st) !! i = Some r).
    { apply add_valid_other; [done|]. intros Heq. apply Hno. auto. }
    destruct dir as [ents|]; [|done].
    apply foldl_scan_other; [done|]. intros [Hin Hcat]. apply Hno. eauto.
Qed.

Lemma language_init_adds_only_witness :
  let st := (language_add "xx" initial_state).2 in
  language_list (language_init (Some [".git"; "all_languages"; "fr"]) st) !! 0
  = Some (mk_language "xx" 0).
Proof.
  intros st.
  destruct (language_init_adds_only (Some [".git"; "all_languages"; "fr"]) st)
    as [_ H].
  apply H; [reflexivity|].
  intros [?|(ents & [= <-] & Hin & _)]; [discriminate|].
  repeat (apply elem_of_cons in Hin as [Hin|Hin]; [discriminate|]).
  by apply elem_of_nil in Hin.
Defined.

(** X11: Running [language_init] again on the same directory changes nothing. *)
Theorem language_init_idempotent dir st :
  language_init dir (language_init dir st) = language_init dir st.
Proof.
  set (st' := language_init dir st).
  assert (Hreg : ∀ name, init_registers dir name → registered_valid name st')
    by (intros name; apply language_init_registered).
  unfold language_init at 1.
  rewrite add_valid_fixed by (apply Hreg; by left).
  destruct dir as [ents|]; [|done].
  apply foldl_scan_fixed. intros e Hin Hcat. apply Hreg. right. eauto.
Qed.

(** ** The list of valid names *)

Lemma str_app_cons c a b : String c a +:+ b = String c (a +:+ b).
Proof. reflexivity. Qed.

Lemma str_app_assoc a b c : (a +:+ b) +:+ c = a +:+ b +:+ c.
Proof.
  induction a as [|x a IH]; [done|]. by rewrite !str_app_cons, IH.
Qed.

Lemma str_app_empty a b : a +:+ b = "" → a = "" ∧ b = "".
Proof. destruct a; [done|]. by rewrite str_app_cons. Qed.

Lemma str_take_0 s : str_take 0 s = "".
Proof. by destruct s. Qed.

Lemma str_take_app n a b :
  str_take n (a +:+ b) = str_take n a +:+ str_take (n - String.length a) b.
Proof.
  revert n. induction a as [|c a IH]; intros n.
  - cbn [String.length]. rewrite Nat.sub_0_r.
    change ("" +:+ b) with b. destruct n; [by rewrite !str_take_0|done].
  - rewrite str_app_cons. destruct n as [|n]; [done|].
    cbn [str_take String.length]. by rewrite str_app_cons, IH.
Qed.

Lemma str_take_empty n s : str_take (S n) s = "" ↔ s = "".
Proof. by destruct s. Qed.

(** Appending in a buffer of [n + 1] bytes to the first [n] bytes of a
    text gives the first [n] bytes of the whole. *)
Lemma strlcat_take n a s :
  strlcat (str_take n a) s (S n) = str_take n (a +:+ s).
Proof.
  unfold strlcat. rewrite decide_False by (rewrite str_take_length; lia).
  rewrite str_take_app. f_equal.
  rewrite str_take_length. replace (S n - 1) with n by lia.
  destruct (decide (String.length a ≤ n)).
  - by rewrite Nat.min_r by done.
  - rewrite Nat.min_l by lia. replace (n - n) with 0 by lia.
    replace (n - String.length a) with 0 by lia. done.
Qed.

Lemma names_step_take a r :
  names_step (str_take 511 a) r =
  str_take 511 (if language_is_valid r then join_step a (l_name r) else a).
Proof.
  unfold names_step, language_is_valid, join_step.
  destruct (negb _); [|done].
  destruct (decide (a = "")) as [->|Ha].
  - change (str_take 511 "") with (str_take 511 ("" +:+ "")).
    rewrite !bool_decide_eq_true_2 by done. apply (strlcat_take 511).
  - rewrite !bool_decide_eq_false_2; [|done|by rewrite str_take_empty].
    by rewrite !(strlcat_take 511).
Qed.

Lemma foldl_names_take l a :
  foldl names_step (str_take 511 a) l =
  str_take 511
    (foldl join_step a (l_name <$> filter (λ r, language_is_valid r = true) l)).
Proof.
  revert a. induction l as [|r l IH]; intros a; [done|].
  cbn [foldl]. rewrite names_step_take, IH.
  destruct (language_is_valid r) eqn:E.
  - by rewrite filter_cons_True by done.
  - by rewrite filter_cons_False by congruence.
Qed.

Lemma foldl_join_nonempty ns a :
  a ≠ "" → foldl join_step a ns = str_join (a :: ns).
Proof.
  revert a. induction ns as [|n ns IH]; intros a Ha; [done|].
  cbn [foldl]. unfold join_step at 2. rewrite bool_decide_eq_false_2 by done.
  rewrite IH by (by intros [[? _]%str_app_empty _]%str_app_empty).
  destruct ns as [|m ns]; cbn [str_join]; by rewrite !str_app_assoc.
Qed.

Lemma foldl_join ns : foldl join_step "" ns = str_join (skip_empty ns).
Proof.
  induction ns as [|n ns IH]; [done|].
  cbn [foldl]. unfold join_step at 2. rewrite bool_decide_eq_true_2 by done.
  change ("" +:+ n) with n.
  destruct n as [|c n]; [exact IH|].
  by apply foldl_join_nonempty.
Qed.

Lemma language_names_take st :
  language_names st = str_take 511 (str_join (skip_empty (valid_names st))).
Proof.
  unfold language_names, valid_names. rewrite <- foldl_join.
  apply (foldl_names_take _ "").
Qed.

(** X12: [language_names] returns the names of the valid records, in registry
    order and joined by single spaces, cut to the 511 bytes that the
    static buffer holds; empty names at the head of the list leave no
    trace.  When the joined names fit, they are returned whole. *)
Theorem language_names_joined st :
  let joined := str_join (skip_empty (valid_names st)) in
  language_names st = str_take 511 joined ∧
  String.length (language_names st) ≤ 511 ∧
  (String.length joined ≤ 511 → language_names st = joined).
Proof.
  intros joined. rewrite language_names_take. fold joined. split_and!.
  - done.
  - rewrite str_take_length. lia.
  - apply str_take_all.
Qed.

Lemma language_names_joined_witness :
  let st := language_init (Some ["fr"; "de"]) (language_add "xx" initial_state).2 in
  language_names st = str_join ["en"; "fr"; "de"].
Proof.
  intros st. destruct (language_names_joined st) as (_ & _ & H).
  apply H. vm_compute. lia.
Defined.

(** ** Sequences of calls *)

Lemma run_kept dup BUFSIZE ops st : registry_kept st (run dup BUFSIZE ops st).
Proof.
  unfold run. revert st. induction ops as [|o ops IH]; intros st; simpl;
    [apply registry_kept_refl|].
  eapply registry_kept_trans; [apply step_kept | apply IH].
Qed.

(** X13: Along any sequence of calls a record keeps its position and its name,
    and a record that is valid stays valid. *)
Theorem run_keeps_records dup BUFSIZE ops st i r :
  language_list st !! i = Some r →
  ∃ r', language_list (run dup BUFSIZE ops st) !! i = Some r' ∧
        l_name r' = l_name r ∧
        (language_is_valid r = true → language_is_valid r' = true).
Proof.
  intros Hi. destruct (run_kept dup BUFSIZE ops st i r Hi) as (r' & Hi' & Hr).
  exists r'. split; [done|]. destruct Hr as [->| ->]; [done|].
  split; [done|]. intros _. apply flag_valid_is_valid.
Qed.

Lemma run_keeps_records_witness :
  let st := language_init None initial_state in
  ∃ r', language_list
          (run Reject 512
             [Language_add "fr"; Translation_init; Language_init (Some ["de"])] st)
          !! 0 = Some r' ∧
        l_name r' = "en" ∧ language_is_valid r' = true.
Proof.
  intros st.
  destruct (run_keeps_records Reject 512
              [Language_add "fr"; Translation_init; Language_init (Some ["de"])]
              st 0 (mk_language "en" 1)) as (r' & H1 & H2 & H3); [reflexivity|].
  exists r'. split; [exact H1|]. split; [exact H2 | by apply H3].
Defined.

Lemma language_add_valid_names name st :
  valid_names (language_add name st).2 = valid_names st.
Proof.
  destruct (language_find name st) as [i|] eqn:E.
  - by rewrite (language_add_found _ _ _ E).
  - rewrite (language_add_new _ _ E). unfold valid_names.
    cbn [snd language_list]. rewrite filter_app.
    rewrite (filter_cons_False _ (mk_language name 0)) by done.
    by rewrite filter_nil, app_nil_r.
Qed.

Lemma step_valid_names dup BUFSIZE o st :
  (∀ dir, o ≠ Language_init dir) →
  valid_names (step dup BUFSIZE o st) = valid_names st.
Proof.
  intros Hno. destruct o; cbn [step]; destroy_eq; try done.
  - by destruct (Hno dir).
  - apply language_add_valid_names.
Qed.

(** X14: Only [language_init] changes what [language_names] returns: across a
    sequence of calls without it, the valid names and the string that
    lists them stay the same. *)
Theorem run_without_init dup BUFSIZE ops st :
  Forall (λ o, ∀ dir, o ≠ Language_init dir) ops →
  valid_names (run dup BUFSIZE ops st) = valid_names st ∧
  language_names (run dup BUFSIZE ops st) = language_names st.
Proof.
  intros Hops.
  assert (Hv : valid_names (run dup BUFSIZE ops st) = valid_names st).
  { unfold run. revert st. induction Hops as [|o ops Ho _ IH]; intros st; [done|].
    simpl. rewrite IH. by apply step_valid_names. }
  split; [exact Hv|]. by rewrite !language_names_take, Hv.
Qed.

Lemma run_without_init_witness :
  let st := language_init None initial_state in
  language_names
    (run Reject 512 [Language_add "fr"; Itranslation_create "a" "b"] st)
  = language_names st.
Proof.
  intros st.
  destruct (run_without_init Reject 512
              [Language_add "fr"; Itranslation_create "a" "b"] st) as [_ H];
    [|exact H].
  repeat constructor; discriminate.
Defined.
